(** * min-max: the scalar codec, the rank-to-digit mapper and the layer unwinder

    A shallow embedding of [speedy_min.cpp].

    - [int] is the 32-bit two's-complement machine integer: a [Z] together
      with its wrap-around ([Int32.wrap]).  Integer division by zero, and
      [INT_MIN / -1], have no defined result.
    - [double] values are carried as exact rationals ([Q]).  Every double the
      unwinder computes is a half-integer of magnitude below [2^33], which
      binary64 represents exactly, so no rounding takes place there
      ([unwind_arith_exact]).  The codec is stated once more over the real
      numbers ([encodeR], [decodeR]) and the two are linked by [Q2R].
    - the two [std::vector] logs, the clock and the ghost call trace are
      threaded explicitly as a [world]. *)

From Stdlib Require Import ZArith List Lia Bool QArith Qround Qpower.
From Stdlib Require Import Reals Lra Qreals.
From Stdlib Require Import String Ascii.
Import ListNotations.

Local Open Scope Z_scope.

(** ** Outcomes of a C++ computation *)

(** A computation either returns a value or has no defined result
    (undefined behaviour: a hardware trap on x86). *)
Inductive outcome (A : Type) : Type :=
| Returns (a : A)
| Undefined.

Arguments Returns {A} a.
Arguments Undefined {A}.

Definition bind {A B : Type} (m : outcome A) (f : A -> outcome B) : outcome B :=
  match m with
  | Returns a => f a
  | Undefined => Undefined
  end.

Notation "x <- m ;; f" := (bind m (fun x => f))
  (at level 61, m at next level, right associativity).

Definition returns {A : Type} (m : outcome A) : bool :=
  match m with Returns _ => true | Undefined => false end.

(** ** The machine integer [int] *)

Module Int32.

Definition min_int : Z := - 2 ^ 31.
Definition max_int : Z := 2 ^ 31 - 1.
Definition modulus : Z := 2 ^ 32.

Definition in_range (z : Z) : Prop := min_int <= z <= max_int.

Definition in_rangeb (z : Z) : bool := (min_int <=? z) && (z <=? max_int).

(** Two's-complement wrap-around of a mathematical integer. *)
Definition wrap (z : Z) : Z := (z + 2 ^ 31) mod modulus - 2 ^ 31.

Definition add (a b : Z) : Z := wrap (a + b).
Definition sub (a b : Z) : Z := wrap (a - b).
Definition mul (a b : Z) : Z := wrap (a * b).

(** [a / b]: truncating division. *)
Definition div (a b : Z) : outcome Z :=
  if b =? 0 then Undefined
  else if (a =? min_int) && (b =? -1) then Undefined
  else Returns (Z.quot a b).

(** [a % b]: the remainder of truncating division. *)
Definition rem (a b : Z) : outcome Z :=
  if b =? 0 then Undefined
  else if (a =? min_int) && (b =? -1) then Undefined
  else Returns (Z.rem a b).

End Int32.

(** ** Scalar codec *)

(** [double encode(double Y, int D)]: [pow(2, D) * (Y + D / 2.0)]. *)
Definition encode (Y : Q) (D : Z) : Q :=
  (Qpower 2 D * (Y + inject_Z D / 2))%Q.

(** [double decode(double X, int D)]: [X / pow(2, D) - D / 2.0]. *)
Definition decode (X : Q) (D : Z) : Q :=
  (X / Qpower 2 D - inject_Z D / 2)%Q.

(** The same two formulas over the real numbers. *)
Definition encodeR (Y : R) (D : Z) : R :=
  (powerRZ 2 D * (Y + IZR D / 2))%R.

Definition decodeR (X : R) (D : Z) : R :=
  (X / powerRZ 2 D - IZR D / 2)%R.

(** [static_cast<int>(x)] for a double [x]: truncation toward zero; the result
    is undefined when the truncated value is not representable in [int]. *)
Definition Qtruncate (x : Q) : Z :=
  if Qle_bool 0 x then Qfloor x else Qceiling x.

Definition to_int (x : Q) : outcome Z :=
  let z := Qtruncate x in
  if Int32.in_rangeb z then Returns z else Undefined.

(** ** Rank-to-digit mapper *)

(** The body of [for (int j = 1; j <= k; ++j)]; [todo] counts the iterations
    still to run, that is [k + 1 - j]. *)
Fixpoint ith_loop (todo : nat) (i j factor : Z) (result : list Z)
  : outcome (list Z) :=
  match todo with
  | O => Returns result
  | S todo' =>
      let factor := Int32.mul factor j in
      q <- Int32.div i factor ;;
      element <- Int32.rem q (Int32.add j 1) ;;
      ith_loop todo' i (Int32.add j 1) factor (result ++ [element])
  end.

(** [std::vector<int> ithPermutation(int n, int k, int i)]. *)
Definition ithPermutation (n k i : Z) : outcome (list Z) :=
  ith_loop (Z.to_nat k) i 1 1 [].

(** [j!], the multiplier the loop is meant to hold after iteration [j]. *)
Fixpoint factorial (j : nat) : Z :=
  match j with
  | O => 1
  | S j' => Z.of_nat j * factorial j'
  end.

Definition fact (j : Z) : Z := factorial (Z.to_nat j).

(** ** Telemetry and the world the unwinder runs in *)

(** Ghost events: the calls a run makes, in the order it makes them.  The
    program never reads them. *)
Inductive event : Type :=
| EvDecode (layer_depth value : Z)
| EvMapper (value : Z)
| EvSample (layer_depth elapsed size : Z).

(** [timings] and [sizes] are the two vectors passed by reference, the
    durations being whole numbers of nanoseconds; [ticks] counts the readings
    of the clock taken so far. *)
Record world : Type := mkWorld {
  timings : list Z;
  sizes : list Z;
  ticks : nat;
  trace : list event
}.

Definition note (e : event) (w : world) : world :=
  {| timings := timings w; sizes := sizes w; ticks := ticks w;
     trace := trace w ++ [e] |}.

Definition is_decode (e : event) : bool :=
  match e with EvDecode _ _ => true | _ => false end.

Definition is_mapper (e : event) : bool :=
  match e with EvMapper _ => true | _ => false end.





Definition decode_steps (tr : list event) : nat := List.length (filter is_decode tr).
Definition mapper_calls (tr : list event) : nat := List.length (filter is_mapper tr).

(** The byte size of the contents of a digit sequence: [sizeof(int)] is 4. *)
Definition byte_size (digits : list Z) : Z := 4 * Z.of_nat (List.length digits).

Section Unwinder.

(** [now t] is what [high_resolution_clock::now()] answers at its [t]-th
    reading, in nanoseconds; [sizeof_result] is the compile-time constant
    [sizeof(std::vector<int>)]. *)
Variable now : nat -> Z.
Variable sizeof_result : Z.

Definition read_clock (w : world) : Z * world :=
  (now (ticks w),
   {| timings := timings w; sizes := sizes w; ticks := S (ticks w);
      trace := trace w |}).

(** [timings.push_back(duration.count()); sizes.push_back(sizeof(result));] *)
Definition push_sample (layer_depth elapsed : Z) (w : world) : world :=
  {| timings := timings w ++ [elapsed];
     sizes := sizes w ++ [sizeof_result];
     ticks := ticks w;
     trace := trace w ++ [EvSample layer_depth elapsed sizeof_result] |}.

(** The recursion of [reverse_engineer_encoded_value]; [None] when [fuel]
    frames do not reach the terminal case. *)
Fixpoint unwind (fuel : nat) (value layer_depth n k : Z) (w : world)
  : option (outcome (list Z) * world) :=
  if layer_depth =? 0 then
    Some (ithPermutation n k value, note (EvMapper value) w)
  else
    match fuel with
    | O => None
    | S fuel' =>
        let (start_time, w) := read_clock w in
        let decoded_value := decode (inject_Z value) 1 in
        match to_int (decoded_value - inject_Z layer_depth / 2)%Q with
        | Undefined => Some (Undefined, w)
        | Returns original_value =>
            match unwind fuel' original_value (Int32.sub layer_depth 1) n k
                    (note (EvDecode layer_depth value) w) with
            | None => None
            | Some (Undefined, w') => Some (Undefined, w')
            | Some (Returns result, w') =>
                let (end_time, w') := read_clock w' in
                Some (Returns result,
                      push_sample layer_depth (end_time - start_time) w')
            end
        end
    end.

(** [std::vector<int> reverse_engineer_encoded_value(int value,
    int layer_depth, int n, int k, std::vector<double>& timings,
    std::vector<int>& sizes)].  A negative [layer_depth] never meets the
    terminal test; it gets no result here. *)
Definition reverse_engineer_encoded_value (value layer_depth n k : Z)
  (w : world) : option (outcome (list Z) * world) :=
  unwind (Z.to_nat layer_depth) value layer_depth n k w.

End Unwinder.

(** ** Loading the candidate values *)

Definition isspace (c : ascii) : bool :=
  let n := nat_of_ascii c in
  (n =? 32)%nat || ((9 <=? n)%nat && (n <=? 13)%nat).

Definition digit_value (c : ascii) : option Z :=
  let n := Z.of_nat (nat_of_ascii c) in
  if (48 <=? n) && (n <=? 57) then Some (n - 48) else None.

Fixpoint skipws (s : string) : string :=
  match s with
  | EmptyString => EmptyString
  | String c rest => if isspace c then skipws rest else s
  end.

(** The longest run of decimal digits at the head of [s], as a number;
    [acc] is [None] until a digit has been read. *)
Fixpoint read_digits (s : string) (acc : option Z) : option Z :=
  match s with
  | EmptyString => acc
  | String c rest =>
      match digit_value c with
      | Some d =>
          read_digits rest
            (Some (10 * match acc with Some a => a | None => 0 end + d))
      | None => acc
      end
  end.

Definition clamp (z : Z) : Z := Z.max Int32.min_int (Z.min Int32.max_int z).

(** What [ss >> value] does to [value]. *)
Inductive extraction : Type :=
| Stored (value : Z)
| Untouched.

(** [ss >> value] for an [int]: leading white space is skipped; an optional
    sign and the digits that follow are converted; when there is no digit the
    stream fails and stores 0; a number outside [int] is stored clamped.  On a
    blank line nothing is stored. *)
Definition extract_int (line : string) : extraction :=
  match skipws line with
  | EmptyString => Untouched
  | String c rest =>
      let '(negative, body) :=
        if Ascii.eqb c "-" then (true, rest)
        else if Ascii.eqb c "+" then (false, rest)
        else (false, String c rest) in
      match read_digits body None with
      | None => Stored 0
      | Some m => Stored (clamp (if negative then - m else m))
      end
  end.

(** The lines [std::getline] delivers; [line] is the line being read. *)
Fixpoint read_lines (file line : string) : list string :=
  match file with
  | EmptyString =>
      match line with
      | EmptyString => []
      | _ => [line]
      end
  | String c rest =>
      if Ascii.eqb c "010" then line :: read_lines rest EmptyString
      else read_lines rest (line ++ String c EmptyString)
  end.

(** The [while] loop of the loader.  [int value;] is not initialised, so a
    line that stores nothing pushes an indeterminate value. *)
Fixpoint load_lines (lines : list string) (values : list Z) : outcome (list Z) :=
  match lines with
  | [] => Returns values
  | line :: rest =>
      match extract_int line with
      | Stored value => load_lines rest (values ++ [value])
      | Untouched => Undefined
      end
  end.

(** [std::vector<int> load_values_from_csv(const std::string&)], on the
    contents of the file. *)
Definition load_values_from_csv (file : string) : outcome (list Z) :=
  load_lines (read_lines file EmptyString) [].

(** ** The driver *)

(** [ceil(k * log2(n))] for [n >= 1], taken exactly. *)
Definition ceil_k_log2 (n k : Z) : Z :=
  if 0 <=? k then Z.log2_up (n ^ k) else - Z.log2 (n ^ (- k)).

(** [static_cast<int>(std::ceil(k * std::log2(n)))]: [log2] of zero is minus
    infinity and of a negative number is NaN; neither converts to [int]. *)
Definition layers (n k : Z) : outcome Z :=
  if n <=? 0 then Undefined
  else
    let l := ceil_k_log2 n k in
    if Int32.in_rangeb l then Returns l else Undefined.

(** [*std::min_element(values.begin(), values.end())]. *)
Definition min_element (values : list Z) : outcome Z :=
  match values with
  | [] => Undefined
  | v :: vs => Returns (fold_left Z.min vs v)
  end.

(** The two lines [main] prints. *)
Record report : Type := mkReport {
  smallest_value : Z;
  total_time : Z
}.

(** The world of a program whose two logs were just created. *)
Definition fresh_world (t0 : nat) : world :=
  {| timings := []; sizes := []; ticks := t0; trace := [] |}.

Section Driver.

Variable now : nat -> Z.
Variable sizeof_result : Z.

(** [main], from the parsed options on: [n], [k] and the contents of the
    file named by [csv]; [t0] is the number of clock readings before it. *)
Definition main (n k : Z) (file : string) (t0 : nat)
  : outcome (report * world) :=
  values <- load_values_from_csv file ;;
  l <- layers n k ;;
  let (start_time, w) := read_clock now (fresh_world t0) in
  smallest <- min_element values ;;
  match reverse_engineer_encoded_value now sizeof_result smallest l n k w with
  | None => Undefined
  | Some (Undefined, _) => Undefined
  | Some (Returns _, w') =>
      let (end_time, w') := read_clock now w' in
      Returns ({| smallest_value := smallest;
                  total_time := end_time - start_time |}, w')
  end.

End Driver.

(** * Notions used to state the properties *)

(** ** One unwind step and the whole descent *)

(** The value handed to the next level, in closed form. *)
Definition next_value (value layer_depth : Z) : Z :=
  Z.quot (value - 1 - layer_depth) 2.

(** Each double of a step is a half-integer far below [2^53]: binary64 holds
    it exactly, and the rational arithmetic above is the machine's. *)
Definition half_integer_below (bound : Z) (x : Q) : Prop :=
  exists m : Z, (x == m # 2)%Q /\ Z.abs m < bound.

(** The value that reaches the mapper after [steps] levels. *)
Fixpoint descend (steps : nat) (value : Z) : Z :=
  match steps with
  | O => value
  | S s => descend s (next_value value (Z.of_nat steps))
  end.

Fixpoint decode_events (steps : nat) (value : Z) : list event :=
  match steps with
  | O => []
  | S s =>
      EvDecode (Z.of_nat steps) value
        :: decode_events s (next_value value (Z.of_nat steps))
  end.

Section Unwound.

Variable now : nat -> Z.
Variable sizeof_result : Z.

(** What the step at depth [i] of a call of depth [d] measures, when the
    call starts at clock reading [t0]: it reads the clock at [t0 + d - i]
    on the way down and at [t0 + d + i - 1] on the way back. *)
Definition elapsed_at (t0 d i : nat) : Z :=
  now (t0 + d + i - 1)%nat - now (t0 + d - i)%nat.

Definition sample_events (t0 d : nat) : list event :=
  map (fun i => EvSample (Z.of_nat i) (elapsed_at t0 d i) sizeof_result)
      (seq 1 d).

(** The world a call of depth [d] on [value] leaves behind; [ok] tells
    whether the mapper returned. *)
Definition unwound_world (ok : bool) (d : nat) (value : Z) (w : world)
  : world :=
  {| timings :=
       timings w ++ (if ok then map (elapsed_at (ticks w) d) (seq 1 d) else []);
     sizes := sizes w ++ (if ok then repeat sizeof_result d else []);
     ticks := (ticks w + d + (if ok then d else 0))%nat;
     trace :=
       trace w ++ decode_events d value ++ [EvMapper (descend d value)]
         ++ (if ok then sample_events (ticks w) d else []) |}.

End Unwound.

(** ** The digits of the mixed-radix rule *)

(** The digit the mapper is meant to produce at position [j]. *)
Definition digit (i j : Z) : Z := Z.rem (Z.quot i (fact j)) (j + 1).

Fixpoint zrange (j : Z) (len : nat) : list Z :=
  match len with
  | O => []
  | S len' => j :: zrange (j + 1) len'
  end.

(** The multiplier after [todo] more iterations of the loop. *)
Fixpoint factor_after (todo : nat) (j factor : Z) : Z :=
  match todo with
  | O => factor
  | S todo' => factor_after todo' (Int32.add j 1) (Int32.mul factor j)
  end.

(** ** Lines of the input *)

Definition is_digit (c : ascii) : bool :=
  match digit_value c with Some _ => true | None => false end.

(** A line whose first token cannot start a number. *)
Definition non_numeric (line : string) : bool :=
  match skipws line with
  | EmptyString => false
  | String c _ => negb (is_digit c || Ascii.eqb c "-" || Ascii.eqb c "+")
  end.

Definition blank (line : string) : bool :=
  match skipws line with EmptyString => true | _ => false end.

(** The value a line contributes. *)
Definition value_of (line : string) : Z :=
  match extract_int line with Stored v => v | Untouched => 0 end.

(** ** The rank a digit sequence stands for *)

(** [d_j * j! + d_(j+1) * (j+1)! + ...] for the digits from position [j] on. *)
Fixpoint weighted (j : Z) (digits : list Z) : Z :=
  match digits with
  | [] => 0
  | d :: digits' => d * fact j + weighted (j + 1) digits'
  end.

Definition rank_of_digits (digits : list Z) : Z := weighted 1 digits.

(** No division of the next [todo] iterations has a zero or [-1] divisor. *)
Fixpoint loop_defined (todo : nat) (j factor : Z) : bool :=
  match todo with
  | O => true
  | S todo' =>
      let factor := Int32.mul factor j in
      negb (factor =? 0) && negb (factor =? -1)
      && negb (Int32.add j 1 =? 0) && negb (Int32.add j 1 =? -1)
      && loop_defined todo' (Int32.add j 1) factor
  end.

(** ** Where a deep descent ends *)

(** How far [value] at depth [layer_depth] is from the values [-layer_depth - 3]
    and [-layer_depth - 2], which every step maps to their like one level
    down. *)
Definition gap (value layer_depth : Z) : Z :=
  if value + layer_depth <=? -3 then - (value + layer_depth) - 3
  else value + layer_depth + 2.

(** The value a descent of 33 levels or more hands to the mapper. *)
Definition settled (value layer_depth : Z) : Z :=
  if value + layer_depth <=? -3 then -3 else -2.

(** ** Digits of a line *)

Fixpoint all_digits (s : string) : bool :=
  match s with
  | EmptyString => true
  | String c rest => is_digit c && all_digits rest
  end.

(** * Properties *)

Example spec_scenario : ithPermutation 10 3 37 = Returns [1; 0; 2].
Proof. reflexivity. Qed.

(** ** Machine integers *)

Lemma in_rangeb_spec (z : Z) : Int32.in_rangeb z = true <-> Int32.in_range z.
Proof.
  unfold Int32.in_rangeb, Int32.in_range.
  rewrite andb_true_iff, !Z.leb_le. tauto.
Qed.

Lemma wrap_in_range (z : Z) : Int32.in_range z -> Int32.wrap z = z.
Proof.
  unfold Int32.in_range, Int32.wrap, Int32.min_int, Int32.max_int, Int32.modulus.
  intros H. rewrite Z.mod_small; lia.
Qed.

Lemma in_range_intro (z : Z) :
  - 2 ^ 31 <= z <= 2 ^ 31 - 1 -> Int32.in_range z.
Proof. intros H. exact H. Qed.

Lemma sub_one_positive (d : Z) :
  0 < d <= Int32.max_int -> Int32.sub d 1 = d - 1.
Proof.
  intros H. unfold Int32.sub. apply wrap_in_range.
  unfold Int32.in_range, Int32.min_int, Int32.max_int in *. lia.
Qed.

(** ** Scalar codec *)



Lemma decode_encode (Y : Q) (D : Z) : (decode (encode Y D) D == Y)%Q.
Proof.
  unfold decode, encode.
  assert (Hp : ~ (Qpower 2 D == 0)%Q) by (apply Qpower_not_0; discriminate).
  field. exact Hp.
Qed.

(** The rational codec is the real one, read through [Q2R]. *)
Lemma Q2R_two : Q2R 2 = 2%R.
Proof. unfold Q2R; simpl. lra. Qed.

Lemma Q2R_inject_Z (z : Z) : Q2R (inject_Z z) = IZR z.
Proof. unfold Q2R, inject_Z; simpl. lra. Qed.

Lemma Q2R_pow2 (D : Z) : Q2R (Qpower 2 D) = powerRZ 2 D.
Proof.
  rewrite RMicromega.Q2RpowerRZ by (left; discriminate).
  now rewrite Q2R_two.
Qed.

Lemma Q2R_encode (Y : Q) (D : Z) : Q2R (encode Y D) = encodeR (Q2R Y) D.
Proof.
  unfold encode, encodeR.
  rewrite Q2R_mult, Q2R_plus, Q2R_pow2.
  unfold Qdiv. rewrite Q2R_mult, Q2R_inv by discriminate.
  now rewrite Q2R_inject_Z, Q2R_two.
Qed.

Lemma Q2R_decode (X : Q) (D : Z) : Q2R (decode X D) = decodeR (Q2R X) D.
Proof.
  unfold decode, decodeR.
  assert (Hp : ~ (Qpower 2 D == 0)%Q) by (apply Qpower_not_0; discriminate).
  rewrite Q2R_minus. unfold Qdiv.
  rewrite !Q2R_mult, !Q2R_inv by (assumption || discriminate).
  now rewrite Q2R_pow2, Q2R_inject_Z, Q2R_two.
Qed.



(** ** The arithmetic of one unwind step *)

Lemma Qtruncate_comp (x y : Q) : (x == y)%Q -> Qtruncate x = Qtruncate y.
Proof.
  intros E. unfold Qtruncate.
  destruct (Qle_bool 0 x) eqn:Hx; destruct (Qle_bool 0 y) eqn:Hy.
  - now rewrite E.
  - apply Qle_bool_iff in Hx. rewrite E in Hx. apply Qle_bool_iff in Hx.
    congruence.
  - apply Qle_bool_iff in Hy. rewrite <- E in Hy. apply Qle_bool_iff in Hy.
    congruence.
  - now rewrite E.
Qed.

Lemma Qtruncate_half (a : Z) : Qtruncate (a # 2) = Z.quot a 2.
Proof.
  unfold Qtruncate, Qle_bool, Qceiling, Qfloor, Qopp; simpl.
  rewrite Z.mul_1_r.
  destruct (0 <=? a) eqn:Ha.
  - apply Z.leb_le in Ha. symmetry. apply Z.quot_div_nonneg; lia.
  - apply Z.leb_gt in Ha.
    replace a with (- (- a)) at 2 by lia.
    rewrite Z.quot_opp_l by lia.
    rewrite Z.quot_div_nonneg by lia. reflexivity.
Qed.

Lemma decode_one (v : Z) : (decode (inject_Z v) 1 == (v - 1) # 2)%Q.
Proof. unfold decode, Qeq; simpl. lia. Qed.

Lemma unwind_operand (v d : Z) :
  (decode (inject_Z v) 1 - inject_Z d / 2 == (v - 1 - d) # 2)%Q.
Proof. unfold decode, Qeq; simpl. lia. Qed.


Lemma unwind_arith_exact (v d : Z) :
  Int32.in_range v -> Int32.in_range d ->
  half_integer_below (2 ^ 53) (decode (inject_Z v) 1) /\
  half_integer_below (2 ^ 53) (inject_Z d / 2) /\
  half_integer_below (2 ^ 53) (decode (inject_Z v) 1 - inject_Z d / 2).
Proof.
  unfold Int32.in_range, Int32.min_int, Int32.max_int, half_integer_below.
  intros Hv Hd. repeat split.
  - exists (v - 1). split; [apply decode_one | lia].
  - exists d. split; [unfold Qeq; simpl; lia | lia].
  - exists (v - 1 - d). split; [apply unwind_operand | lia].
Qed.

Lemma next_value_in_range (v d : Z) :
  Int32.in_range v -> Int32.in_range d -> Int32.in_range (next_value v d).
Proof.
  unfold Int32.in_range, Int32.min_int, Int32.max_int, next_value.
  intros Hv Hd.
  assert (H := Z.quot_rem' (v - 1 - d) 2).
  assert (Hr : Z.abs (Z.rem (v - 1 - d) 2) < Z.abs 2)
    by (apply Z.rem_bound_abs; lia).
  lia.
Qed.

Lemma to_int_step (v d : Z) :
  Int32.in_range v -> Int32.in_range d ->
  to_int (decode (inject_Z v) 1 - inject_Z d / 2) = Returns (next_value v d).
Proof.
  intros Hv Hd. unfold to_int.
  rewrite (Qtruncate_comp _ _ (unwind_operand v d)), Qtruncate_half.
  fold (next_value v d).
  assert (H := next_value_in_range v d Hv Hd).
  apply in_rangeb_spec in H. now rewrite H.
Qed.

(** ** The unwinder, level by level *)

Lemma descend_in_range (d : nat) : forall v,
  Z.of_nat d <= Int32.max_int -> Int32.in_range v ->
  Int32.in_range (descend d v).
Proof.
  induction d as [|d IH]; intros v Hd Hv; [exact Hv|].
  cbn [descend]. apply IH; [lia|].
  apply next_value_in_range; [exact Hv|].
  unfold Int32.in_range, Int32.min_int in *. lia.
Qed.

Section Unwinding.

Variable now : nat -> Z.
Variable sizeof_result : Z.
Variables n k : Z.

Lemma elapsed_at_shift (t0 d i : nat) :
  (1 <= i)%nat -> elapsed_at now (S t0) d i = elapsed_at now t0 (S d) i.
Proof.
  intros Hi. unfold elapsed_at. f_equal; f_equal; lia.
Qed.

Lemma elapsed_at_outer (t0 d : nat) :
  now (S t0 + d + d)%nat - now t0 = elapsed_at now t0 (S d) (S d).
Proof.
  unfold elapsed_at. f_equal; f_equal; lia.
Qed.

Lemma unwind_eq (d : nat) : forall fuel v w,
  (d <= fuel)%nat -> Z.of_nat d <= Int32.max_int -> Int32.in_range v ->
  unwind now sizeof_result fuel v (Z.of_nat d) n k w =
  Some (ithPermutation n k (descend d v),
        unwound_world now sizeof_result (returns (ithPermutation n k (descend d v))) d v w).
Proof.
  induction d as [|d IH]; intros fuel v w Hfuel Hd Hv.
  - destruct fuel; cbn [unwind Z.of_nat Z.eqb descend];
      (f_equal; f_equal; unfold unwound_world, note;
       destruct (returns _); cbn [seq map repeat decode_events app];
       rewrite !app_nil_r, !Nat.add_0_r; reflexivity).
  - destruct fuel as [|fuel]; [lia|].
    assert (Hnz : (Z.of_nat (S d) =? 0) = false) by (apply Z.eqb_neq; lia).
    assert (Hdr : Int32.in_range (Z.of_nat (S d)))
      by (unfold Int32.in_range, Int32.min_int in *; lia).
    cbn [unwind]. rewrite Hnz. cbn [read_clock].
    rewrite (to_int_step v _ Hv Hdr).
    rewrite sub_one_positive by lia.
    replace (Z.of_nat (S d) - 1) with (Z.of_nat d) by lia.
    rewrite IH; [| lia | lia | now apply next_value_in_range].
    cbn [descend].
    set (o := ithPermutation n k _).
    destruct o as [result|]; cbn [returns].
    + unfold unwound_world, push_sample, read_clock, note.
      cbn [timings sizes ticks trace].
      f_equal. f_equal.
      rewrite elapsed_at_outer.
      assert (Hmap : map (elapsed_at now (S (ticks w)) d) (seq 1 d)
                     = map (elapsed_at now (ticks w) (S d)) (seq 1 d)).
      { apply map_ext_in. intros i Hi. apply in_seq in Hi.
        apply elapsed_at_shift. lia. }
      assert (Hev : sample_events now sizeof_result (S (ticks w)) d
                    = map (fun i => EvSample (Z.of_nat i)
                                      (elapsed_at now (ticks w) (S d) i)
                                      sizeof_result) (seq 1 d)).
      { apply map_ext_in. intros i Hi. apply in_seq in Hi.
        rewrite elapsed_at_shift by lia. reflexivity. }
      f_equal.
      * rewrite seq_S, map_app, Hmap, <- app_assoc. reflexivity.
      * rewrite <- app_assoc, <- repeat_cons. reflexivity.
      * lia.
      * unfold sample_events at 2. rewrite seq_S, map_app, Hev.
        cbn [decode_events descend map Nat.add].
        rewrite <- !app_assoc. reflexivity.
    + unfold unwound_world, note. cbn [timings sizes ticks trace].
      f_equal. f_equal. f_equal.
      * lia.
      * cbn [decode_events]. rewrite <- !app_assoc. reflexivity.
Qed.

End Unwinding.

(** ** Reading a trace *)




Lemma decode_events_shape (d : nat) : forall v e,
  In e (decode_events d v) -> exists depth value, e = EvDecode depth value.
Proof.
  induction d as [|d IH]; intros v e H; [destruct H|].
  cbn [decode_events] in H. destruct H as [<- | H]; eauto.
Qed.

Lemma decode_events_length (d : nat) (v : Z) :
  List.length (decode_events d v) = d.
Proof.
  revert v. induction d as [|d IH]; intros v; [reflexivity|].
  cbn [decode_events List.length]. now rewrite IH.
Qed.

Lemma filter_all {A : Type} (p : A -> bool) (l : list A) :
  (forall x, In x l -> p x = true) -> filter p l = l.
Proof.
  induction l as [|x l IH]; intros H; [reflexivity|].
  cbn [filter]. rewrite (H x (or_introl eq_refl)). f_equal.
  apply IH. intros y Hy. apply H. now right.
Qed.

Lemma filter_none {A : Type} (p : A -> bool) (l : list A) :
  (forall x, In x l -> p x = false) -> filter p l = [].
Proof.
  induction l as [|x l IH]; intros H; [reflexivity|].
  cbn [filter]. rewrite (H x (or_introl eq_refl)).
  apply IH. intros y Hy. apply H. now right.
Qed.

Section Counting.

Variable now : nat -> Z.
Variable sizeof_result : Z.

Lemma sample_events_shape (t0 d : nat) (e : event) :
  In e (sample_events now sizeof_result t0 d) ->
  exists depth elapsed, e = EvSample depth elapsed sizeof_result.
Proof.
  unfold sample_events. intros H. apply in_map_iff in H.
  destruct H as [i [<- _]]. eauto.
Qed.

Lemma decode_steps_unwound (ok : bool) (d : nat) (v : Z) (w : world) :
  decode_steps (trace (unwound_world now sizeof_result ok d v w))
  = (decode_steps (trace w) + d)%nat.
Proof.
  unfold decode_steps, unwound_world. cbn [trace].
  rewrite !filter_app, !length_app.
  rewrite (filter_all is_decode (decode_events d v)).
  - rewrite decode_events_length. cbn [filter is_decode List.length].
    rewrite (filter_none is_decode
               (if ok then sample_events now sizeof_result (ticks w) d
                else [])); [cbn [List.length]; lia|].
    intros e He. destruct ok; [|destruct He].
    apply sample_events_shape in He. destruct He as [? [? ->]]. reflexivity.
  - intros e He. apply decode_events_shape in He.
    destruct He as [? [? ->]]. reflexivity.
Qed.

Lemma mapper_calls_unwound (ok : bool) (d : nat) (v : Z) (w : world) :
  mapper_calls (trace (unwound_world now sizeof_result ok d v w))
  = (mapper_calls (trace w) + 1)%nat.
Proof.
  unfold mapper_calls, unwound_world. cbn [trace].
  rewrite !filter_app, !length_app.
  rewrite (filter_none is_mapper (decode_events d v)).
  - cbn [filter is_mapper List.length].
    rewrite (filter_none is_mapper
               (if ok then sample_events now sizeof_result (ticks w) d
                else [])); [cbn [List.length]; lia|].
    intros e He. destruct ok; [|destruct He].
    apply sample_events_shape in He. destruct He as [? [? ->]]. reflexivity.
  - intros e He. apply decode_events_shape in He.
    destruct He as [? [? ->]]. reflexivity.
Qed.


(** The unwinder at a non-negative depth. *)
Lemma reverse_engineer_eq (v d n k : Z) (w : world) :
  Int32.in_range v -> 0 <= d <= Int32.max_int ->
  reverse_engineer_encoded_value now sizeof_result v d n k w =
  Some (ithPermutation n k (descend (Z.to_nat d) v),
        unwound_world now sizeof_result
          (returns (ithPermutation n k (descend (Z.to_nat d) v)))
          (Z.to_nat d) v w).
Proof.
  intros Hv Hd. unfold reverse_engineer_encoded_value.
  rewrite <- (Z2Nat.id d) at 2 by lia.
  apply unwind_eq; [lia | rewrite Z2Nat.id; lia | exact Hv].
Qed.

End Counting.

(** ** The mapper *)

Lemma zrange_length (len : nat) (j : Z) : List.length (zrange j len) = len.
Proof.
  revert j. induction len as [|len IH]; intros j; [reflexivity|].
  cbn [zrange List.length]. now rewrite IH.
Qed.

Lemma zrange_nth (len : nat) : forall j p,
  (p < len)%nat -> nth_error (zrange j len) p = Some (j + Z.of_nat p).
Proof.
  induction len as [|len IH]; intros j p Hp; [lia|].
  destruct p as [|p]; cbn [zrange nth_error].
  - f_equal. lia.
  - rewrite IH by lia. f_equal. lia.
Qed.

Lemma div_defined (a b : Z) :
  b <> 0 -> b <> -1 -> Int32.div a b = Returns (Z.quot a b).
Proof.
  intros H0 H1. unfold Int32.div.
  apply Z.eqb_neq in H0, H1. now rewrite H0, H1, andb_false_r.
Qed.

Lemma rem_defined (a b : Z) :
  b <> 0 -> b <> -1 -> Int32.rem a b = Returns (Z.rem a b).
Proof.
  intros H0 H1. unfold Int32.rem.
  apply Z.eqb_neq in H0, H1. now rewrite H0, H1, andb_false_r.
Qed.

Lemma fact_step (j : Z) : 1 <= j -> fact j = j * fact (j - 1).
Proof.
  intros Hj. unfold fact.
  replace (Z.to_nat j) with (S (Z.to_nat (j - 1))) by lia.
  cbn [factorial]. f_equal. lia.
Qed.

Lemma fact_small (j : Z) : 0 <= j <= 12 -> 0 < fact j <= 479001600.
Proof.
  intros Hj.
  assert (H : j = 0 \/ j = 1 \/ j = 2 \/ j = 3 \/ j = 4 \/ j = 5 \/ j = 6 \/
              j = 7 \/ j = 8 \/ j = 9 \/ j = 10 \/ j = 11 \/ j = 12) by lia.
  repeat (destruct H as [-> | H]; [vm_compute; split; congruence|]).
  subst j. vm_compute. split; congruence.
Qed.

Lemma mul_fact (j : Z) : 1 <= j <= 12 -> Int32.mul (fact (j - 1)) j = fact j.
Proof.
  intros Hj. unfold Int32.mul.
  rewrite (Z.mul_comm (fact (j - 1)) j), <- fact_step by lia.
  apply wrap_in_range.
  assert (H := fact_small j ltac:(lia)).
  unfold Int32.in_range, Int32.min_int, Int32.max_int. lia.
Qed.

(** While the multiplier fits in an [int] (up to [12!]), the loop computes
    the digits of the mixed-radix rule. *)
Lemma ith_loop_exact (todo : nat) : forall i j result,
  1 <= j -> j + Z.of_nat todo <= 13 ->
  ith_loop todo i j (fact (j - 1)) result
  = Returns (result ++ map (digit i) (zrange j todo)).
Proof.
  induction todo as [|todo IH]; intros i j result Hj Hk.
  - cbn [ith_loop zrange map]. now rewrite app_nil_r.
  - cbn [ith_loop]. rewrite mul_fact by lia.
    assert (Hf := fact_small j ltac:(lia)).
    rewrite div_defined by lia. cbn [bind].
    assert (Ha : Int32.add j 1 = j + 1).
    { apply wrap_in_range.
      unfold Int32.in_range, Int32.min_int, Int32.max_int. lia. }
    rewrite Ha, rem_defined by lia. cbn [bind].
    assert (IH' := IH i (j + 1) (result ++ [Z.rem (Z.quot i (fact j)) (j + 1)])
                      ltac:(lia) ltac:(lia)).
    replace (j + 1 - 1) with j in IH' by lia.
    rewrite IH'. cbn [zrange map]. rewrite <- app_assoc. reflexivity.
Qed.

Lemma ithPermutation_exact (n k i : Z) :
  1 <= k <= 12 ->
  ithPermutation n k i = Returns (map (digit i) (zrange 1 (Z.to_nat k))).
Proof.
  intros Hk. unfold ithPermutation.
  change 1 with (fact (1 - 1)) at 2.
  rewrite ith_loop_exact by lia. reflexivity.
Qed.

Lemma digit_bounds (i j : Z) : 0 <= i -> 1 <= j -> 0 <= digit i j <= j.
Proof.
  intros Hi Hj. unfold digit.
  assert (Hf : 0 < fact j).
  { unfold fact. induction (Z.to_nat j) as [|m IHm]; cbn [factorial]; lia. }
  assert (Hq : 0 <= Z.quot i (fact j)) by (apply Z.quot_pos; lia).
  assert (H := Z.rem_bound_pos (Z.quot i (fact j)) (j + 1) Hq ltac:(lia)).
  lia.
Qed.

(** X2: within [k <= 12] the mapper meets its contract: [k] digits, the one at
    position [j] being [(i / j!) mod (j + 1)], in [[0, j]] for a rank
    [i >= 0]. *)
Lemma ithPermutation_contract_small (n k i : Z) :
  1 <= k <= 12 -> 0 <= i ->
  exists digits,
    ithPermutation n k i = Returns digits /\
    Z.of_nat (List.length digits) = k /\
    forall j, 1 <= j <= k ->
      nth_error digits (Z.to_nat (j - 1)) = Some (digit i j) /\
      0 <= digit i j <= j.
Proof.
  intros Hk Hi. eexists. split; [now apply ithPermutation_exact|]. split.
  - rewrite length_map, zrange_length. lia.
  - intros j Hj. split; [|apply digit_bounds; lia].
    rewrite nth_error_map, zrange_nth by lia.
    cbn [option_map]. do 2 f_equal. lia.
Qed.

(** From [j = 13] on the multiplier no longer is [j!]; at [j = 34] it has
    wrapped to zero, and the division has no defined result. *)
Lemma ith_loop_zero_factor (todo : nat) : forall i j factor result,
  factor_after (S todo) j factor = 0 ->
  ith_loop (S todo) i j factor result = Undefined.
Proof.
  induction todo as [|todo IH]; intros i j factor result H.
  - cbn [factor_after] in H. cbn [ith_loop]. rewrite H. reflexivity.
  - change (ith_loop (S (S todo)) i j factor result)
      with (q <- Int32.div i (Int32.mul factor j) ;;
            element <- Int32.rem q (Int32.add j 1) ;;
            ith_loop (S todo) i (Int32.add j 1) (Int32.mul factor j)
              (result ++ [element])).
    destruct (Int32.div i (Int32.mul factor j)) as [q|]; [|reflexivity].
    cbn [bind].
    destruct (Int32.rem q (Int32.add j 1)) as [element|]; [|reflexivity].
    cbn [bind]. apply IH. exact H.
Qed.

Lemma ith_loop_undefined_more (todo more : nat) : forall i j factor result,
  ith_loop todo i j factor result = Undefined ->
  ith_loop (todo + more) i j factor result = Undefined.
Proof.
  induction todo as [|todo IH]; intros i j factor result H.
  - discriminate H.
  - cbn [ith_loop Nat.add] in *.
    destruct (Int32.div i (Int32.mul factor j)) as [q|]; [|reflexivity].
    cbn [bind] in *.
    destruct (Int32.rem q (Int32.add j 1)) as [element|]; [|reflexivity].
    cbn [bind] in *. now apply IH.
Qed.

Lemma ithPermutation_undefined (n k i : Z) :
  34 <= k -> ithPermutation n k i = Undefined.
Proof.
  intros Hk. unfold ithPermutation.
  replace (Z.to_nat k) with (34 + (Z.to_nat k - 34))%nat by lia.
  apply ith_loop_undefined_more, ith_loop_zero_factor.
  vm_compute. reflexivity.
Qed.

(** C2: the mapper is to return, for every positive [k] and every rank
    [i >= 0], [k] digits with the digit at position [j] equal to
    [(i / j!) mod (j + 1)] and inside [[0, j]].  The [int] multiplier
    overflows from [j = 13] on ([13!] wraps to 1932053504): at [n = 2],
    [k = 16] the digits 13 and 14 of rank 1932053504 are 1 and 1 where the
    rule gives 0 and 0; at [k = 17] rank 288522240 gets the digit -1; at
    [k = 34] the multiplier is zero and the division has no defined result. *)
Theorem ithPermutation_overflow :
  ithPermutation 2 16 1932053504
    = Returns [0; 1; 1; 4; 3; 6; 7; 1; 4; 4; 0; 4; 1; 1; 0; 0] /\
  map (digit 1932053504) (zrange 1 16)
    = [0; 1; 1; 4; 3; 6; 7; 1; 4; 4; 0; 4; 0; 0; 0; 0] /\
  fact 13 = 6227020800 /\
  factor_after 13 1 1 = 1932053504 /\
  ithPermutation 17 17 288522240
    = Returns [0; 0; 0; 0; 2; 3; 6; 0; 5; 2; 7; 0; 0; 0; 0; 0; -1] /\
  factor_after 34 1 1 = 0 /\
  ithPermutation 40 34 0 = Undefined.
Proof. vm_compute. repeat split. Qed.

(** ** The unwinder *)

Section Claims.

Variable now : nat -> Z.
Variable sizeof_result : Z.

Local Abbreviation run :=
  (reverse_engineer_encoded_value now sizeof_result).

(** X6: for every depth [L >= 0] the unwinder takes [L] decode steps and calls
    the mapper once; when the mapper returns, both logs have grown by [L]
    entries, and by none when it does not. *)
Lemma unwind_counts (v L n k : Z) (w : world) :
  Int32.in_range v -> 0 <= L <= Int32.max_int ->
  exists o w',
    run v L n k w = Some (o, w') /\
    decode_steps (trace w') = (decode_steps (trace w) + Z.to_nat L)%nat /\
    mapper_calls (trace w') = (mapper_calls (trace w) + 1)%nat /\
    List.length (timings w')
      = (List.length (timings w) + if returns o then Z.to_nat L else 0)%nat /\
    List.length (sizes w')
      = (List.length (sizes w) + if returns o then Z.to_nat L else 0)%nat.
Proof.
  intros Hv HL. do 2 eexists. split; [now apply reverse_engineer_eq|].
  split; [apply decode_steps_unwound|].
  split; [apply mapper_calls_unwound|].
  unfold unwound_world. cbn [timings sizes].
  rewrite !length_app.
  destruct (returns _);
    now rewrite ?length_map, ?length_seq, ?repeat_length.
Qed.

(** C3: a top-level call at depth [L = ceil(k * log2(n))] is to end with
    exactly [L] log entries for every positive [n] and [k].  At [n = 2],
    [k = 34] the depth is 34; the call takes its 34 decode steps and calls
    the mapper once, the mapper divides by zero, and the call comes back
    with no result and both logs still empty. *)
Theorem unwinder_no_entries_at_34 :
  layers 2 34 = Returns 34 /\
  exists w',
    run 0 34 2 34 (fresh_world 0) = Some (Undefined, w') /\
    decode_steps (trace w') = 34%nat /\
    mapper_calls (trace w') = 1%nat /\
    timings w' = [] /\ sizes w' = [].
Proof.
  split; [vm_compute; reflexivity|].
  eexists. split; [vm_compute; reflexivity|].
  vm_compute. repeat split.
Qed.


(** C7: the size logged by a step is to be the byte size of the digit
    sequence the inner step returned.  What is pushed is
    [sizeof(result)], the size of the vector object: the same number for
    the one-digit and for the two-digit sequence. *)
Theorem size_sample_is_sizeof (w : world) :
  exists w1 w2,
    run 10 1 2 1 w = Some (Returns [0], w1) /\
    sizes w1 = sizes w ++ [sizeof_result] /\
    byte_size [0] = 4 /\
    run 10 1 2 2 w = Some (Returns [0; 2], w2) /\
    sizes w2 = sizes w ++ [sizeof_result] /\
    byte_size [0; 2] = 8.
Proof.
  do 2 eexists. repeat split.
Qed.

(** X11: every size a call appends is the constant [sizeof_result]. *)
Lemma sizes_are_sizeof (v d n k : Z) (w : world) :
  Int32.in_range v -> 0 <= d <= Int32.max_int ->
  exists o w' m,
    run v d n k w = Some (o, w') /\
    sizes w' = sizes w ++ repeat sizeof_result m.
Proof.
  intros Hv Hd.
  exists (ithPermutation n k (descend (Z.to_nat d) v)).
  eexists.
  exists (if returns (ithPermutation n k (descend (Z.to_nat d) v))
          then Z.to_nat d else 0%nat).
  split; [now apply reverse_engineer_eq|].
  unfold unwound_world. cbn [sizes]. now destruct (returns _).
Qed.


(** C9: a call at any depth [d >= 0], on any logs, leaves each log as it
    found it with new entries appended at the end. *)
Theorem logs_only_grow (v d n k : Z) (w : world) :
  Int32.in_range v -> 0 <= d <= Int32.max_int ->
  exists o w' ts ss,
    run v d n k w = Some (o, w') /\
    timings w' = timings w ++ ts /\
    sizes w' = sizes w ++ ss /\
    List.length ts = List.length ss.
Proof.
  intros Hv Hd. do 4 eexists.
  split; [now apply reverse_engineer_eq|].
  unfold unwound_world. cbn [timings sizes]. repeat split.
  destruct (returns _); [|reflexivity].
  now rewrite length_map, length_seq, repeat_length.
Qed.

End Claims.

(** C10: what the unwinder returns is fixed by [(value, layer_depth, n, k)]:
    started on any two logs, and with any two clocks, both runs come back
    with the same outcome, the mapper's answer on the unwound value. *)
Theorem digits_independent_of_logs (now1 now2 : nat -> Z) (sizeof_result : Z)
  (v d n k : Z) (w1 w2 : world) :
  Int32.in_range v -> 0 <= d <= Int32.max_int ->
  exists o w1' w2',
    reverse_engineer_encoded_value now1 sizeof_result v d n k w1 = Some (o, w1') /\
    reverse_engineer_encoded_value now2 sizeof_result v d n k w2 = Some (o, w2') /\
    o = ithPermutation n k (descend (Z.to_nat d) v).
Proof.
  intros Hv Hd. do 3 eexists.
  split; [now apply reverse_engineer_eq|].
  split; [now apply reverse_engineer_eq|reflexivity].
Qed.



Lemma logs_only_grow_witness :
  Int32.in_range 1000 /\ 0 <= 3 <= Int32.max_int /\
  exists o w' ts ss,
    reverse_engineer_encoded_value Z.of_nat 24 1000 3 10 3
      {| timings := [5]; sizes := [6]; ticks := 0; trace := [] |}
      = Some (o, w') /\
    timings w' = [5] ++ ts /\ sizes w' = [6] ++ ss.
Proof.
  assert (Hv : Int32.in_range 1000) by (apply in_range_intro; lia).
  assert (Hd : 0 <= 3 <= Int32.max_int) by (unfold Int32.max_int; lia).
  destruct (logs_only_grow Z.of_nat 24 1000 3 10 3
              {| timings := [5]; sizes := [6]; ticks := 0; trace := [] |}
              Hv Hd) as [o [w' [ts [ss [Hrun [Ht [Hs _]]]]]]].
  split; [exact Hv|]. split; [exact Hd|].
  exists o, w', ts, ss. split; [exact Hrun|]. split; [exact Ht|exact Hs].
Defined.

Lemma digits_independent_of_logs_witness :
  Int32.in_range 1000 /\ 0 <= 3 <= Int32.max_int /\
  exists o w1' w2',
    reverse_engineer_encoded_value Z.of_nat 24 1000 3 10 3 (fresh_world 0)
      = Some (o, w1') /\
    reverse_engineer_encoded_value (fun t => 7 * Z.of_nat t) 24 1000 3 10 3
      {| timings := [5]; sizes := [6; 6]; ticks := 9; trace := [] |}
      = Some (o, w2').
Proof.
  assert (Hv : Int32.in_range 1000) by (apply in_range_intro; lia).
  assert (Hd : 0 <= 3 <= Int32.max_int) by (unfold Int32.max_int; lia).
  destruct (digits_independent_of_logs Z.of_nat (fun t => 7 * Z.of_nat t) 24
              1000 3 10 3 (fresh_world 0)
              {| timings := [5]; sizes := [6; 6]; ticks := 9; trace := [] |}
              Hv Hd) as [o [w1' [w2' [H1 [H2 _]]]]].
  split; [exact Hv|]. split; [exact Hd|].
  exists o, w1', w2'. split; [exact H1|exact H2].
Defined.

(** ** The loader *)

Lemma extract_int_non_blank (line : string) :
  blank line = false -> extract_int line = Stored (value_of line).
Proof.
  unfold blank, value_of, extract_int.
  destruct (skipws line) as [|c rest]; [discriminate|]. intros _.
  destruct (if Ascii.eqb c "-" then (true, rest)
            else if Ascii.eqb c "+" then (false, rest)
            else (false, String c rest)) as [negative body].
  destruct (read_digits body None); reflexivity.
Qed.

Lemma extract_int_non_numeric (line : string) :
  non_numeric line = true -> extract_int line = Stored 0.
Proof.
  unfold non_numeric, extract_int, is_digit.
  destruct (skipws line) as [|c rest]; [discriminate|]. intros H.
  apply negb_true_iff in H. apply orb_false_iff in H. destruct H as [H Hplus].
  apply orb_false_iff in H. destruct H as [Hdigit Hminus].
  rewrite Hminus, Hplus. cbn [read_digits].
  destruct (digit_value c); [discriminate|reflexivity].
Qed.

Lemma non_numeric_not_blank (line : string) :
  non_numeric line = true -> blank line = false.
Proof.
  unfold non_numeric, blank. destruct (skipws line); [discriminate|reflexivity].
Qed.

Lemma load_lines_total (lines : list string) : forall values,
  (forall line, In line lines -> blank line = false) ->
  load_lines lines values = Returns (values ++ map value_of lines).
Proof.
  induction lines as [|line lines IH]; intros values H.
  - cbn [load_lines map]. now rewrite app_nil_r.
  - cbn [load_lines map].
    rewrite (extract_int_non_blank line) by (apply H; now left).
    rewrite IH by (intros l Hl; apply H; now right).
    now rewrite <- app_assoc.
Qed.

(** C6 (as the code has it): no input token makes the loader fail.  When no
    line is blank the loader returns one value per line, and a line whose
    first token is not numeric contributes the value 0. *)
Theorem malformed_lines_load_as_zero (file : string) :
  (forall line, In line (read_lines file EmptyString) -> blank line = false) ->
  exists values,
    load_values_from_csv file = Returns values /\
    List.length values = List.length (read_lines file EmptyString) /\
    forall p line,
      nth_error (read_lines file EmptyString) p = Some line ->
      non_numeric line = true ->
      nth_error values p = Some 0.
Proof.
  intros H. unfold load_values_from_csv.
  rewrite load_lines_total by exact H. cbn [app].
  eexists. split; [reflexivity|]. split; [apply length_map|].
  intros p line Hp Hline.
  rewrite nth_error_map, Hp. cbn [option_map]. f_equal.
  unfold value_of. now rewrite extract_int_non_numeric.
Qed.

(** The file [abc\n12] has no blank line; its first line is not numeric. *)
Lemma malformed_lines_load_as_zero_witness :
  exists values,
    load_values_from_csv (String "a" (String "b" (String "c"
       (String "010" (String "1" (String "2" EmptyString))))))
      = Returns values /\
    nth_error values 0 = Some 0.
Proof.
  destruct (malformed_lines_load_as_zero
              (String "a" (String "b" (String "c"
                 (String "010" (String "1" (String "2" EmptyString)))))))
    as [values [Hload [_ Hzero]]].
  - intros line Hin. vm_compute in Hin.
    destruct Hin as [<- | [<- | []]]; reflexivity.
  - exists values. split; [exact Hload|].
    apply (Hzero 0%nat "abc"%string); reflexivity.
Defined.

(** The one-line file [abc] is loaded as the single value 0. *)
Lemma malformed_token_loaded_as_zero :
  non_numeric "abc" = true /\
  load_values_from_csv "abc" = Returns [0].
Proof. split; reflexivity. Qed.

(** ** The driver *)

Lemma layers_no_selection (n : Z) : 1 <= n -> layers n 0 = Returns 0.
Proof.
  intros Hn. unfold layers, ceil_k_log2.
  assert (H : (n <=? 0) = false) by (apply Z.leb_gt; lia).
  rewrite H. reflexivity.
Qed.

Lemma layers_undefined (n k : Z) : n <= 0 -> layers n k = Undefined.
Proof.
  intros Hn. unfold layers.
  assert (H : (n <=? 0) = true) by (apply Z.leb_le; lia).
  now rewrite H.
Qed.

(** C5 (as the code has it): [n] and [k] are not validated.  With [n <= 0]
    the run has no defined result, and the values are loaded before that is
    found out; with [n >= 1] and [k = 0] the program runs to its end: the
    depth is 0, no unwind step is taken and the minimum is reported. *)
Theorem arguments_not_validated (now : nat -> Z) (sizeof_result : Z)
  (n k : Z) (file : string) (values : list Z) (m : Z) (t0 : nat) :
  load_values_from_csv file = Returns values ->
  min_element values = Returns m ->
  (n <= 0 -> main now sizeof_result n k file t0 = Undefined) /\
  (1 <= n ->
   main now sizeof_result n 0 file t0
   = Returns ({| smallest_value := m;
                 total_time := now (S t0) - now t0 |},
              {| timings := []; sizes := []; ticks := S (S t0);
                 trace := [EvMapper m] |})).
Proof.
  intros Hload Hmin. unfold main. rewrite Hload. cbn [bind]. split.
  - intros Hn. now rewrite layers_undefined.
  - intros Hn. rewrite layers_no_selection by exact Hn.
    cbn [bind read_clock fresh_world ticks]. rewrite Hmin. reflexivity.
Qed.

Lemma arguments_not_validated_witness :
  main Z.of_nat 24 0 5 "3" 0 = Undefined /\
  main Z.of_nat 24 7 0 "3" 0
  = Returns ({| smallest_value := 3; total_time := 1 |},
             {| timings := []; sizes := []; ticks := 2;
                trace := [EvMapper 3] |}).
Proof.
  split.
  - apply (proj1 (arguments_not_validated Z.of_nat 24 0 5 "3" [3] 3 0
                    eq_refl eq_refl)). lia.
  - apply (proj2 (arguments_not_validated Z.of_nat 24 7 0 "3" [3] 3 0
                    eq_refl eq_refl)). lia.
Defined.

(** With [n = 5] and [k = 0] the program is not stopped: it prints the
    minimum of its input. *)
Lemma invalid_k_runs_to_completion :
  main Z.of_nat 24 5 0 "3" 0
  = Returns ({| smallest_value := 3; total_time := 1 |},
             {| timings := []; sizes := []; ticks := 2;
                trace := [EvMapper 3] |}).
Proof. reflexivity. Qed.

(** * Further properties of the code *)

(** ** The mapper beyond its contract *)

Lemma ith_loop_length (todo : nat) : forall i j factor result digits,
  ith_loop todo i j factor result = Returns digits ->
  List.length digits = (List.length result + todo)%nat.
Proof.
  induction todo as [|todo IH]; intros i j factor result digits H.
  - cbn [ith_loop] in H. injection H as <-. lia.
  - cbn [ith_loop] in H.
    destruct (Int32.div i (Int32.mul factor j)) as [q|]; [|discriminate H].
    cbn [bind] in H.
    destruct (Int32.rem q (Int32.add j 1)) as [element|]; [|discriminate H].
    cbn [bind] in H. apply IH in H. rewrite H, length_app. cbn [List.length].
    lia.
Qed.

(** X4: whenever the mapper returns, for any [k] and any rank, overflow or not,
    the sequence has [k] elements (none when [k <= 0]). *)
Theorem ithPermutation_length (n k i : Z) (digits : list Z) :
  ithPermutation n k i = Returns digits ->
  List.length digits = Z.to_nat k.
Proof.
  intros H. unfold ithPermutation in H. apply ith_loop_length in H.
  exact H.
Qed.

Lemma ithPermutation_length_witness :
  List.length [0; 1; 1; 4; 3; 6; 7; 1; 4; 4; 0; 4; 1; 1; 0; 0] = Z.to_nat 16.
Proof.
  apply (ithPermutation_length 2 16 1932053504). vm_compute. reflexivity.
Defined.

Lemma loop_defined_returns (todo : nat) : forall i j factor result,
  loop_defined todo j factor = true ->
  exists digits, ith_loop todo i j factor result = Returns digits.
Proof.
  induction todo as [|todo IH]; intros i j factor result H.
  - now exists result.
  - cbn [loop_defined] in H.
    repeat (apply andb_true_iff in H; destruct H as [H ?]).
    repeat match goal with
           | E : negb _ = true |- _ =>
               apply negb_true_iff, Z.eqb_neq in E
           end.
    cbn [ith_loop].
    rewrite div_defined by assumption. cbn [bind].
    rewrite rem_defined by assumption. cbn [bind].
    now apply IH.
Qed.

Lemma loop_defined_prefix (todo more : nat) : forall j factor,
  loop_defined (todo + more) j factor = true ->
  loop_defined todo j factor = true.
Proof.
  induction todo as [|todo IH]; intros j factor H; [reflexivity|].
  cbn [loop_defined Nat.add] in *.
  apply andb_true_iff in H. destruct H as [H Hrest].
  rewrite H. cbn [andb]. now apply IH.
Qed.

Lemma ithPermutation_defined (n k i : Z) :
  k <= 33 -> exists digits, ithPermutation n k i = Returns digits.
Proof.
  intros Hk. unfold ithPermutation.
  apply loop_defined_returns.
  apply (loop_defined_prefix _ (33 - Z.to_nat k)).
  replace (Z.to_nat k + (33 - Z.to_nat k))%nat with 33%nat by lia.
  vm_compute. reflexivity.
Qed.

(** X5: the mapper returns exactly when [k <= 33]: up to there no wrapped
    multiplier is zero; from 34 on the multiplier of iteration 34 is. *)
Theorem ithPermutation_returns_iff (n k i : Z) :
  returns (ithPermutation n k i) = (k <=? 33).
Proof.
  destruct (k <=? 33) eqn:Hk.
  - apply Z.leb_le in Hk.
    destruct (ithPermutation_defined n k i Hk) as [digits ->]. reflexivity.
  - apply Z.leb_gt in Hk. rewrite ithPermutation_undefined by lia.
    reflexivity.
Qed.

Lemma weighted_digits (i : Z) (len : nat) : forall j,
  1 <= j ->
  weighted j (map (digit i) (zrange j len))
  = Z.rem i (fact (j + Z.of_nat len)) - Z.rem i (fact j).
Proof.
  induction len as [|len IH]; intros j Hj.
  - cbn [zrange map weighted]. replace (j + Z.of_nat 0) with j by lia. lia.
  - cbn [zrange map weighted]. rewrite IH by lia.
    replace (j + 1 + Z.of_nat len) with (j + Z.of_nat (S len)) by lia.
    assert (Hf : 0 < fact j).
    { unfold fact. induction (Z.to_nat j) as [|m IHm]; cbn [factorial]; lia. }
    assert (Hs : fact (j + 1) = fact j * (j + 1)).
    { rewrite (fact_step (j + 1)) by lia.
      replace (j + 1 - 1) with j by lia. lia. }
    rewrite Hs, Z.mod_mul_r by lia. unfold digit. lia.
Qed.

(** X3: for [1 <= k <= 12] the digits are those of the rank in the factorial
    number system: weighting digit [j] by [j!] gives the rank back, up to
    [(k + 1)!]; every rank [0 <= i < (k + 1)!] is recovered from its digits. *)
Theorem rank_of_ithPermutation (n k i : Z) :
  1 <= k <= 12 ->
  exists digits,
    ithPermutation n k i = Returns digits /\
    rank_of_digits digits = Z.rem i (fact (k + 1)) /\
    (0 <= i < fact (k + 1) -> rank_of_digits digits = i).
Proof.
  intros Hk. eexists. split; [now apply ithPermutation_exact|].
  assert (H : rank_of_digits (map (digit i) (zrange 1 (Z.to_nat k)))
              = Z.rem i (fact (k + 1))).
  { unfold rank_of_digits. rewrite weighted_digits by lia.
    replace (1 + Z.of_nat (Z.to_nat k)) with (k + 1) by lia.
    change (fact 1) with 1. rewrite Z.rem_1_r. lia. }
  split; [exact H|].
  intros Hi. rewrite H. apply Z.rem_small. exact Hi.
Qed.

Lemma rank_of_ithPermutation_witness :
  1 <= 3 <= 12 /\
  exists digits,
    ithPermutation 10 3 23 = Returns digits /\ rank_of_digits digits = 23.
Proof.
  split; [lia|].
  destruct (rank_of_ithPermutation 10 3 23 ltac:(lia))
    as [digits [Hrun [_ Hrank]]].
  exists digits. split; [exact Hrun|]. apply Hrank. vm_compute.
  split; [discriminate|reflexivity].
Defined.

(** The contract of the mapper on the range where the multiplier does not
    overflow. *)
Lemma ithPermutation_contract_small_witness :
  1 <= 3 <= 12 /\ 0 <= 37 /\
  exists digits,
    ithPermutation 10 3 37 = Returns digits /\
    Z.of_nat (List.length digits) = 3.
Proof.
  split; [lia|]. split; [lia|].
  destruct (ithPermutation_contract_small 10 3 37 ltac:(lia) ltac:(lia))
    as [digits [Hrun [Hlen _]]].
  exists digits. split; [exact Hrun|exact Hlen].
Defined.

(** ** The unwinder over many levels *)

Lemma gap_nonneg (v d : Z) : 0 <= gap v d.
Proof. unfold gap. destruct (v + d <=? -3) eqn:H; lia. Qed.

(** One step halves the gap and keeps the side. *)
Lemma gap_step (v d : Z) :
  0 < d ->
  (next_value v d + (d - 1) <=? -3) = (v + d <=? -3) /\
  gap (next_value v d) (d - 1) <= gap v d / 2.
Proof.
  intros Hd. unfold gap.
  destruct (v + d <=? -3) eqn:Hside.
  - apply Z.leb_le in Hside.
    assert (H : next_value v d + (d - 1) <= -3 /\
                - (next_value v d + (d - 1)) - 3 = (- (v + d) - 3) / 2).
    { unfold next_value. Z.to_euclidean_division_equations. lia. }
    destruct H as [H1 H2]. apply Z.leb_le in H1. rewrite H1. lia.
  - apply Z.leb_gt in Hside.
    assert (H : -2 <= next_value v d + (d - 1) /\
                next_value v d + (d - 1) + 2 <= (v + d + 2) / 2).
    { unfold next_value. Z.to_euclidean_division_equations. lia. }
    destruct H as [H1 H2].
    assert (H3 : (next_value v d + (d - 1) <=? -3) = false)
      by (apply Z.leb_gt; lia).
    rewrite H3. lia.
Qed.

Lemma descend_gap (s : nat) : forall v,
  (descend s v <=? -3) = (v + Z.of_nat s <=? -3) /\
  gap (descend s v) 0 <= gap v (Z.of_nat s) / 2 ^ Z.of_nat s.
Proof.
  induction s as [|s IH]; intros v.
  - cbn [descend]. replace (v + Z.of_nat 0) with v by lia.
    change (2 ^ Z.of_nat 0) with 1. rewrite Z.div_1_r.
    change (Z.of_nat 0) with 0.
    unfold gap. replace (v + 0) with v by lia. split; [reflexivity|lia].
  - cbn [descend].
    destruct (gap_step v (Z.of_nat (S s)) ltac:(lia)) as [Hside Hgap].
    replace (Z.of_nat (S s) - 1) with (Z.of_nat s) in * by lia.
    destruct (IH (next_value v (Z.of_nat (S s)))) as [IHside IHgap].
    split; [now rewrite IHside|].
    eapply Z.le_trans; [exact IHgap|].
    replace (2 ^ Z.of_nat (S s)) with (2 * 2 ^ Z.of_nat s)
      by (rewrite Nat2Z.inj_succ, Z.pow_succ_r; lia).
    rewrite <- Z.div_div by lia.
    apply Z.div_le_mono; [lia|exact Hgap].
Qed.

Lemma descend_settles (v L : Z) :
  Int32.in_range v -> 33 <= L <= Int32.max_int ->
  descend (Z.to_nat L) v = settled v L.
Proof.
  unfold Int32.in_range, Int32.min_int, Int32.max_int. intros Hv HL.
  destruct (descend_gap (Z.to_nat L) v) as [Hside Hgap].
  rewrite Z2Nat.id in * by lia.
  assert (Hbound : 0 <= gap v L < 2 ^ 33).
  { split; [apply gap_nonneg|]. unfold gap. destruct (v + L <=? -3); lia. }
  assert (Hpow : 2 ^ 33 <= 2 ^ L) by (apply Z.pow_le_mono_r; lia).
  rewrite Z.div_small in Hgap by lia.
  assert (H0 := gap_nonneg (descend (Z.to_nat L) v) 0).
  unfold gap, settled in *.
  replace (descend (Z.to_nat L) v + 0) with (descend (Z.to_nat L) v) in *
    by lia.
  rewrite Hside in *. destruct (v + L <=? -3); lia.
Qed.

Lemma ith_loop_settled (m : nat) (i : Z) :
  (2 <= m <= 33)%nat -> i = -3 \/ i = -2 ->
  ith_loop m i 1 1 []
  = Returns ((if i =? -3 then -1 else 0) :: -1 :: repeat 0 (m - 2)).
Proof.
  intros Hm Hi.
  do 34 (destruct m as [|m];
         [first [lia | destruct Hi as [-> | ->]; vm_compute; reflexivity]|]).
  lia.
Qed.

Section Depth.

Variable now : nat -> Z.
Variable sizeof_result : Z.

Local Abbreviation run :=
  (reverse_engineer_encoded_value now sizeof_result).

(** X8: from depth 33 on the unwinder forgets its input: whatever the value, the
    mapper is called on -3 or -2, and on which of the two is decided by
    whether [value + layer_depth <= -3]. *)
Theorem unwinder_forgets_value (v L n k : Z) (w : world) :
  Int32.in_range v -> 33 <= L <= Int32.max_int ->
  exists w',
    run v L n k w
    = Some (ithPermutation n k (if v + L <=? -3 then -3 else -2), w').
Proof.
  intros Hv HL. eexists.
  rewrite reverse_engineer_eq by (assumption || lia).
  rewrite descend_settles by assumption. reflexivity.
Qed.

(** X9: with [2 <= k <= 33] a call of depth 33 or more returns the same digits
    for every value: [-1] at position 2, [0] from position 3 on, and at
    position 1 [-1] or [0]. *)
Theorem unwinder_deep_digits (v L n k : Z) (w : world) :
  Int32.in_range v -> 33 <= L <= Int32.max_int -> 2 <= k <= 33 ->
  exists w',
    run v L n k w
    = Some (Returns ((if v + L <=? -3 then -1 else 0)
                       :: -1 :: repeat 0 (Z.to_nat k - 2)), w').
Proof.
  intros Hv HL Hk. eexists.
  rewrite reverse_engineer_eq by (assumption || lia).
  rewrite descend_settles by assumption.
  unfold ithPermutation, settled.
  rewrite ith_loop_settled;
    [| lia | destruct (v + L <=? -3); [now left | now right]].
  destruct (v + L <=? -3); reflexivity.
Qed.

(** X7: with [k <= 33] a call of any depth [L >= 0] returns: [k] digits, [L]
    decode steps, one call of the mapper, and [L] new entries in each log. *)
Theorem unwinder_completes (v L n k : Z) (w : world) :
  Int32.in_range v -> 0 <= L <= Int32.max_int -> k <= 33 ->
  exists digits w',
    run v L n k w = Some (Returns digits, w') /\
    List.length digits = Z.to_nat k /\
    decode_steps (trace w') = (decode_steps (trace w) + Z.to_nat L)%nat /\
    mapper_calls (trace w') = (mapper_calls (trace w) + 1)%nat /\
    List.length (timings w') = (List.length (timings w) + Z.to_nat L)%nat /\
    List.length (sizes w') = (List.length (sizes w) + Z.to_nat L)%nat /\
    ticks w' = (ticks w + 2 * Z.to_nat L)%nat.
Proof.
  intros Hv HL Hk.
  destruct (ithPermutation_defined n k (descend (Z.to_nat L) v) Hk)
    as [digits Hmap].
  exists digits. eexists.
  split; [rewrite reverse_engineer_eq, Hmap by assumption; reflexivity|].
  split; [exact (ith_loop_length _ _ _ _ _ _ Hmap)|].
  split; [apply decode_steps_unwound|].
  split; [apply mapper_calls_unwound|].
  unfold unwound_world. cbn [returns timings sizes ticks].
  rewrite !length_app, length_map, length_seq, repeat_length.
  repeat split; lia.
Qed.

(** X10: with a clock that never runs backwards the durations a call appends are
    non-negative and non-decreasing: a step's sample spans the samples of the
    steps inside it. *)
Theorem timings_nondecreasing (v L n k : Z) (w : world) :
  (forall a b, (a <= b)%nat -> now a <= now b) ->
  Int32.in_range v -> 0 <= L <= Int32.max_int ->
  exists o w' ts,
    run v L n k w = Some (o, w') /\
    timings w' = timings w ++ ts /\
    forall p q a b,
      (p <= q)%nat -> nth_error ts p = Some a -> nth_error ts q = Some b ->
      0 <= a <= b.
Proof.
  intros Hclock Hv HL. do 3 eexists.
  split; [now apply reverse_engineer_eq|].
  unfold unwound_world. cbn [timings]. split; [reflexivity|].
  intros p q a b Hpq Ha Hb.
  destruct (returns _); [|destruct p; discriminate Ha].
  rewrite nth_error_map, nth_error_seq in Ha, Hb.
  destruct (p <? Z.to_nat L)%nat; [|discriminate Ha].
  destruct (q <? Z.to_nat L)%nat; [|discriminate Hb].
  cbn [option_map] in Ha, Hb. injection Ha as <-. injection Hb as <-.
  unfold elapsed_at.
  assert (H1 := Hclock (ticks w + Z.to_nat L - S p)%nat
                       (ticks w + Z.to_nat L + S p - 1)%nat ltac:(lia)).
  assert (H2 := Hclock (ticks w + Z.to_nat L + S p - 1)%nat
                       (ticks w + Z.to_nat L + S q - 1)%nat ltac:(lia)).
  assert (H3 := Hclock (ticks w + Z.to_nat L - S q)%nat
                       (ticks w + Z.to_nat L - S p)%nat ltac:(lia)).
  lia.
Qed.

End Depth.

(** The properties of this part at the run [value = 1000], [n = 2],
    [k = 16], with a clock that shows its own reading count. *)
Lemma unwinder_forgets_value_witness :
  Int32.in_range 1000 /\ 33 <= 40 <= Int32.max_int /\
  exists w',
    reverse_engineer_encoded_value Z.of_nat 24 1000 40 2 16 (fresh_world 0)
    = Some (ithPermutation 2 16 (-2), w').
Proof.
  assert (Hv : Int32.in_range 1000) by (apply in_range_intro; lia).
  assert (HL : 33 <= 40 <= Int32.max_int) by (unfold Int32.max_int; lia).
  split; [exact Hv|]. split; [exact HL|].
  exact (unwinder_forgets_value Z.of_nat 24 1000 40 2 16 (fresh_world 0)
           Hv HL).
Defined.

Lemma unwinder_deep_digits_witness :
  Int32.in_range 1000 /\ 33 <= 40 <= Int32.max_int /\ 2 <= 16 <= 33 /\
  exists w',
    reverse_engineer_encoded_value Z.of_nat 24 1000 40 2 16 (fresh_world 0)
    = Some (Returns (0 :: -1 :: repeat 0 14), w').
Proof.
  assert (Hv : Int32.in_range 1000) by (apply in_range_intro; lia).
  assert (HL : 33 <= 40 <= Int32.max_int) by (unfold Int32.max_int; lia).
  assert (Hk : 2 <= 16 <= 33) by lia.
  split; [exact Hv|]. split; [exact HL|]. split; [exact Hk|].
  exact (unwinder_deep_digits Z.of_nat 24 1000 40 2 16 (fresh_world 0)
           Hv HL Hk).
Defined.

Lemma unwinder_completes_witness :
  Int32.in_range 1000 /\ 0 <= 16 <= Int32.max_int /\ 16 <= 33 /\
  exists digits w',
    reverse_engineer_encoded_value Z.of_nat 24 1000 16 2 16 (fresh_world 0)
    = Some (Returns digits, w') /\
    List.length digits = 16%nat /\
    List.length (timings w') = 16%nat.
Proof.
  assert (Hv : Int32.in_range 1000) by (apply in_range_intro; lia).
  assert (HL : 0 <= 16 <= Int32.max_int) by (unfold Int32.max_int; lia).
  assert (Hk : 16 <= 33) by lia.
  split; [exact Hv|]. split; [exact HL|]. split; [exact Hk|].
  destruct (unwinder_completes Z.of_nat 24 1000 16 2 16 (fresh_world 0)
              Hv HL Hk) as [digits [w' [Hrun [Hlen [_ [_ [Ht _]]]]]]].
  exists digits, w'. split; [exact Hrun|]. split; [exact Hlen|exact Ht].
Defined.

Lemma timings_nondecreasing_witness :
  (forall a b, (a <= b)%nat -> Z.of_nat a <= Z.of_nat b) /\
  Int32.in_range 1000 /\ 0 <= 16 <= Int32.max_int /\
  exists o w' ts,
    reverse_engineer_encoded_value Z.of_nat 24 1000 16 2 16 (fresh_world 0)
    = Some (o, w') /\
    timings w' = [] ++ ts.
Proof.
  assert (Hclock : forall a b, (a <= b)%nat -> Z.of_nat a <= Z.of_nat b)
    by (intros a b H; lia).
  assert (Hv : Int32.in_range 1000) by (apply in_range_intro; lia).
  assert (HL : 0 <= 16 <= Int32.max_int) by (unfold Int32.max_int; lia).
  split; [exact Hclock|]. split; [exact Hv|]. split; [exact HL|].
  destruct (timings_nondecreasing Z.of_nat 24 1000 16 2 16 (fresh_world 0)
              Hclock Hv HL) as [o [w' [ts [Hrun [Ht _]]]]].
  exists o, w', ts. split; [exact Hrun|exact Ht].
Defined.

Lemma unwind_counts_witness :
  Int32.in_range 1000 /\ 0 <= 3 <= Int32.max_int /\
  exists o w',
    reverse_engineer_encoded_value Z.of_nat 24 1000 3 10 3 (fresh_world 0)
    = Some (o, w') /\
    decode_steps (trace w') = 3%nat /\ mapper_calls (trace w') = 1%nat.
Proof.
  assert (Hv : Int32.in_range 1000) by (apply in_range_intro; lia).
  assert (HL : 0 <= 3 <= Int32.max_int) by (unfold Int32.max_int; lia).
  split; [exact Hv|]. split; [exact HL|].
  destruct (unwind_counts Z.of_nat 24 1000 3 10 3 (fresh_world 0) Hv HL)
    as [o [w' [Hrun [Hd [Hm _]]]]].
  exists o, w'. split; [exact Hrun|]. split; [exact Hd|exact Hm].
Defined.

Lemma sizes_are_sizeof_witness :
  Int32.in_range 1000 /\ 0 <= 3 <= Int32.max_int /\
  exists o w' m,
    reverse_engineer_encoded_value Z.of_nat 24 1000 3 10 3 (fresh_world 0)
    = Some (o, w') /\
    sizes w' = [] ++ repeat 24 m.
Proof.
  assert (Hv : Int32.in_range 1000) by (apply in_range_intro; lia).
  assert (HL : 0 <= 3 <= Int32.max_int) by (unfold Int32.max_int; lia).
  split; [exact Hv|]. split; [exact HL|].
  exact (sizes_are_sizeof Z.of_nat 24 1000 3 10 3 (fresh_world 0) Hv HL).
Defined.

(** ** The loader, line by line *)

Lemma clamp_in_range (z : Z) : Int32.in_range (clamp z).
Proof.
  unfold clamp, Int32.in_range, Int32.min_int, Int32.max_int. lia.
Qed.

Lemma extract_int_in_range (line : string) (v : Z) :
  extract_int line = Stored v -> Int32.in_range v.
Proof.
  unfold extract_int.
  destruct (skipws line) as [|c rest]; [discriminate|].
  destruct (if Ascii.eqb c "-" then (true, rest)
            else if Ascii.eqb c "+" then (false, rest)
            else (false, String c rest)) as [negative body].
  destruct (read_digits body None) as [m|]; intros H; injection H as <-.
  - apply clamp_in_range.
  - apply in_range_intro. lia.
Qed.

Lemma load_lines_in_range (lines : list string) : forall acc values,
  Forall Int32.in_range acc ->
  load_lines lines acc = Returns values ->
  Forall Int32.in_range values.
Proof.
  induction lines as [|line lines IH]; intros acc values Hacc H.
  - cbn [load_lines] in H. now injection H as <-.
  - cbn [load_lines] in H.
    destruct (extract_int line) as [v|] eqn:Hline; [|discriminate H].
    apply (IH (acc ++ [v])); [|exact H].
    apply Forall_app. split; [exact Hacc|].
    constructor; [now apply (extract_int_in_range line)|constructor].
Qed.

Lemma loaded_values_in_range_of_load (file : string) (values : list Z) :
  load_values_from_csv file = Returns values ->
  Forall Int32.in_range values.
Proof.
  unfold load_values_from_csv. apply load_lines_in_range. constructor.
Qed.



Lemma load_lines_blank (lines : list string) : forall acc line,
  In line lines -> blank line = true -> load_lines lines acc = Undefined.
Proof.
  induction lines as [|l lines IH]; intros acc line Hin Hblank;
    [destruct Hin|].
  cbn [load_lines].
  destruct (extract_int l) as [v|] eqn:Hl; [|reflexivity].
  destruct Hin as [-> | Hin]; [|now apply (IH _ line)].
  unfold blank in Hblank. unfold extract_int in Hl.
  destruct (skipws line); discriminate.
Qed.

(** X13: a blank line anywhere in the file (empty, or white space only) leaves the
    loader without a defined result: nothing is stored for it and the
    uninitialised [value] is pushed. *)
Theorem blank_line_undefined (file line : string) :
  In line (read_lines file EmptyString) -> blank line = true ->
  load_values_from_csv file = Undefined.
Proof.
  intros Hin Hblank. unfold load_values_from_csv.
  now apply (load_lines_blank _ _ line).
Qed.

Lemma blank_line_undefined_witness :
  load_values_from_csv
    (String "1" (String "010" (String "010" (String "2" EmptyString))))
  = Undefined.
Proof.
  apply (blank_line_undefined _ EmptyString).
  - vm_compute. right. left. reflexivity.
  - reflexivity.
Defined.

Lemma digit_not_space_or_sign (c : ascii) :
  is_digit c = true ->
  isspace c = false /\ Ascii.eqb c "-" = false /\ Ascii.eqb c "+" = false.
Proof.
  destruct c as [b0 b1 b2 b3 b4 b5 b6 b7].
  destruct b0, b1, b2, b3, b4, b5, b6, b7; vm_compute; intros H;
    first [discriminate H | repeat split].
Qed.

Lemma read_digits_stops (s : string) : forall acc c rest,
  all_digits s = true -> is_digit c = false ->
  read_digits (s ++ String c rest) acc = read_digits s acc.
Proof.
  induction s as [|d s IH]; intros acc c rest Hs Hc.
  - cbn [append read_digits]. unfold is_digit in Hc.
    destruct (digit_value c); [discriminate Hc|reflexivity].
  - cbn [all_digits] in Hs. apply andb_true_iff in Hs. destruct Hs as [_ Hs].
    cbn [append read_digits].
    destruct (digit_value d); [now apply IH|reflexivity].
Qed.

(** X14: of a line only the first number is read: after a run of digits, whatever
    follows the first character that is not a digit is ignored, so a
    comma-separated line contributes its first field alone. *)
Theorem only_first_field (s rest : string) (c : ascii) :
  s <> EmptyString -> all_digits s = true -> is_digit c = false ->
  extract_int (s ++ String c rest) = extract_int s.
Proof.
  intros Hne Hs Hc. destruct s as [|d s]; [congruence|].
  cbn [all_digits] in Hs. apply andb_true_iff in Hs. destruct Hs as [Hd Hs].
  destruct (digit_not_space_or_sign d Hd) as [Hsp [Hm Hp]].
  unfold extract_int. cbn [append skipws]. rewrite Hsp, Hm, Hp.
  change (String d (s ++ String c rest))%string
    with (String d s ++ String c rest)%string.
  rewrite read_digits_stops; [reflexivity | | exact Hc].
  cbn [all_digits]. now rewrite Hd, Hs.
Qed.

Lemma only_first_field_witness :
  extract_int "12,34,56" = extract_int "12".
Proof.
  apply (only_first_field "12" "34,56" ","); [discriminate | reflexivity..].
Defined.

(** ** The driver, end to end *)

Lemma fold_min_spec (vs : list Z) : forall v,
  In (fold_left Z.min vs v) (v :: vs) /\
  forall x, In x (v :: vs) -> fold_left Z.min vs v <= x.
Proof.
  induction vs as [|u vs IH]; intros v.
  - cbn [fold_left]. split; [now left|].
    intros x [<- | []]. lia.
  - cbn [fold_left]. destruct (IH (Z.min v u)) as [Hin Hle]. split.
    + destruct Hin as [Hin | Hin]; [|right; now right].
      destruct (Z.min_spec v u) as [[_ E] | [_ E]].
      * left. congruence.
      * right. left. congruence.
    + intros x Hx.
      assert (Hm := Hle (Z.min v u) (or_introl eq_refl)).
      destruct Hx as [<- | [<- | Hx]]; [lia | lia |].
      apply Hle. now right.
Qed.

Lemma min_element_spec (values : list Z) (m : Z) :
  min_element values = Returns m ->
  In m values /\ forall x, In x values -> m <= x.
Proof.
  destruct values as [|v vs]; [discriminate|].
  cbn [min_element]. intros H. injection H as <-. apply fold_min_spec.
Qed.

Lemma layers_bounded (n k : Z) :
  1 <= n <= Int32.max_int -> 0 <= k <= 33 ->
  exists L, layers n k = Returns L /\ 0 <= L <= Int32.max_int.
Proof.
  unfold Int32.max_int. intros Hn Hk.
  assert (HL : 0 <= ceil_k_log2 n k <= 31 * k).
  { unfold ceil_k_log2.
    assert (E : (0 <=? k) = true) by (apply Z.leb_le; lia). rewrite E.
    split; [apply Z.log2_up_nonneg|].
    rewrite <- (Z.log2_up_pow2 (31 * k)) by lia.
    apply Z.log2_up_le_mono.
    rewrite Z.pow_mul_r by lia.
    apply Z.pow_le_mono_l. lia. }
  exists (ceil_k_log2 n k). unfold layers.
  assert (E : (n <=? 0) = false) by (apply Z.leb_gt; lia). rewrite E.
  assert (R : Int32.in_rangeb (ceil_k_log2 n k) = true).
  { apply in_rangeb_spec. apply in_range_intro. lia. }
  rewrite R. split; [reflexivity|]. unfold Int32.max_int. lia.
Qed.

Section Runs.

Variable now : nat -> Z.
Variable sizeof_result : Z.


(** X16: on an empty file there is no minimum to take: whatever [n] and [k],
    [main] has no defined result. *)
Theorem main_empty_input (n k : Z) (t0 : nat) :
  main now sizeof_result n k EmptyString t0 = Undefined.
Proof.
  unfold main. cbn [load_values_from_csv read_lines load_lines bind].
  destruct (layers n k); reflexivity.
Qed.

(** X17: with [1 <= n], [0 <= k <= 33] and an input that loads to at least one
    value, [main] runs to its end: it prints the minimum, both logs end with
    [L] entries for the depth [L] it computed, and the clock has been read
    [2 L + 2] times. *)
Theorem main_completes (n k : Z) (file : string) (values : list Z) (t0 : nat) :
  1 <= n <= Int32.max_int -> 0 <= k <= 33 ->
  load_values_from_csv file = Returns values -> values <> [] ->
  exists L m w',
    layers n k = Returns L /\
    min_element values = Returns m /\
    main now sizeof_result n k file t0
    = Returns ({| smallest_value := m;
                  total_time := now (t0 + 2 * Z.to_nat L + 1)%nat - now t0 |},
               w') /\
    List.length (timings w') = Z.to_nat L /\
    List.length (sizes w') = Z.to_nat L /\
    ticks w' = (t0 + 2 * Z.to_nat L + 2)%nat.
Proof.
  intros Hn Hk Hload Hne.
  destruct (layers_bounded n k Hn Hk) as [L [HL HLr]].
  destruct values as [|v vs]; [congruence|].
  set (m := fold_left Z.min vs v).
  assert (Hmin : min_element (v :: vs) = Returns m) by reflexivity.
  assert (Hm : Int32.in_range m).
  { assert (Hall := loaded_values_in_range_of_load file (v :: vs) Hload).
    rewrite Forall_forall in Hall. apply Hall.
    now apply min_element_spec. }
  destruct (ithPermutation_defined n k (descend (Z.to_nat L) m) ltac:(lia))
    as [digits Hmap].
  exists L, m. eexists.
  split; [exact HL|]. split; [exact Hmin|].
  unfold main. rewrite Hload, HL. cbn [bind read_clock fresh_world ticks].
  rewrite Hmin. cbn [bind].
  rewrite reverse_engineer_eq, Hmap by assumption.
  unfold unwound_world. cbn [returns read_clock timings sizes ticks trace app].
  replace (S t0 + Z.to_nat L + Z.to_nat L)%nat
    with (t0 + 2 * Z.to_nat L + 1)%nat by lia.
  split; [reflexivity|].
  cbn [timings sizes ticks fresh_world app].
  rewrite length_map, length_seq, repeat_length.
  repeat split. lia.
Qed.

End Runs.


Lemma main_completes_witness :
  1 <= 2 <= Int32.max_int /\ 0 <= 16 <= 33 /\
  exists L m w',
    layers 2 16 = Returns L /\
    min_element [7; 5] = Returns m /\
    main Z.of_nat 24 2 16
      (String "7" (String "010" (String "5" EmptyString))) 0
    = Returns ({| smallest_value := m;
                  total_time :=
                    Z.of_nat (0 + 2 * Z.to_nat L + 1)%nat - Z.of_nat 0 |},
               w') /\
    List.length (timings w') = Z.to_nat L.
Proof.
  assert (Hn : 1 <= 2 <= Int32.max_int) by (unfold Int32.max_int; lia).
  assert (Hk : 0 <= 16 <= 33) by lia.
  split; [exact Hn|]. split; [exact Hk|].
  destruct (main_completes Z.of_nat 24 2 16
              (String "7" (String "010" (String "5" EmptyString)))
              [7; 5] 0%nat Hn Hk eq_refl ltac:(discriminate))
    as [L [m [w' [HL [Hm [Hmain [Ht _]]]]]]].
  exists L, m, w'. repeat split; assumption.
Defined.
